(** * nntrainer: configuration-token resolver and the optimizer developer interface

    A shallow embedding of
    - [nntrainer/src/parse_util.cpp]  ([parseType], [parseLayerProperty]), and
    - [nntrainer/optimizers/optimizer_devel.h]  (class [Optimizer],
      [createOptimizer], [OptimizerPluggable]),
    followed by the properties established about them. *)

From Stdlib Require Import ZArith Lia List Ascii String Bool SpecFloat.
From Stdlib.Strings Require Import Byte.
From stdpp Require Import base option list gmap strings.

(* ===================================================================== *)
(** ** Part I.  parse_util.cpp                                            *)
(* ===================================================================== *)

Module ParseUtil.

Local Open Scope Z_scope.

(** *** C strings and [strncasecmp]

    A [std::string] is a sequence of bytes; [c_str()] exposes the same bytes
    followed by a terminating NUL.  Reading the string at its end therefore
    yields NUL. *)

Definition NUL : ascii := Ascii.zero.

(** [*p] on the buffer returned by [c_str()] *)
Definition peek (s : string) : ascii :=
  match s with
  | EmptyString => NUL
  | String c _ => c
  end.

(** [p + 1] (only ever used while [*p] is not the terminator) *)
Definition advance (s : string) : string :=
  match s with
  | EmptyString => EmptyString
  | String _ r => r
  end.

(** value of an [unsigned char] *)
Definition uchar (c : ascii) : Z := Z.of_N (N_of_ascii c).

(** [tolower] of the C library in the "C" locale: only 'A'..'Z' are mapped. *)
Definition tolower (c : ascii) : ascii :=
  let n := N_of_ascii c in
  if ((65 <=? n) && (n <=? 90))%N then ascii_of_N (n + 32) else c.

(** [strncasecmp(s1, s2, n)] of the C library (POSIX): compares at most [n]
    bytes, ignoring case, stops after a NUL, and returns the difference of the
    first two lowered bytes that differ (0 when there are none). *)
Fixpoint strncasecmp (s1 s2 : string) (n : nat) : Z :=
  match n with
  | O => 0
  | S n' =>
      let c1 := peek s1 in
      let c2 := peek s2 in
      let result := uchar (tolower c1) - uchar (tolower c2) in
      if negb (result =? 0) then result
      else if Ascii.eqb c1 NUL then 0
      else strncasecmp (advance s1) (advance s2) n'
  end.

(** *** Machine integers: [unsigned int] and [int] are 32 bits wide. *)

Definition to_uint (z : Z) : Z := z mod 2 ^ 32.

Definition to_int (z : Z) : Z :=
  let u := z mod 2 ^ 32 in
  if u <? 2 ^ 31 then u else u - 2 ^ 32.

(** *** The lookup tables (local arrays of [parseType] / [parseLayerProperty]) *)

Local Open Scope string_scope.

Definition optimizer_string : list string := ["sgd"; "adam"; "unknown"].

Definition cost_string : list string := ["msr"; "cross"; "unknown"].

Definition network_type_string : list string :=
  ["knn"; "regression"; "neuralnet"; "unknown"].

Definition activation_string : list string :=
  ["tanh"; "sigmoid"; "relu"; "softmax"; "unknown"].

Definition layer_string : list string :=
  ["input"; "fully_connected"; "batch_normalization"; "unknown"].

Definition weight_ini_string : list string :=
  ["lecun_normal"; "lecun_uniform"; "xavier_normal"; "xavier_uniform";
   "he_normal"; "he_uniform"; "unknown"].

Definition weight_decay_string : list string :=
  ["l2norm"; "regression"; "unknown"].

Definition property_string : list string :=
  ["input_shape"; "bias_zero"; "normalization"; "standardization";
   "activation"; "epsilon"; "weight_decay"; "unknown"].

Local Close Scope string_scope.

(** *** The category selector *)

(** Modelled from the spec: the declaration of the enum [InputType]
    ([parse_util.h]) is missing from the sources.  Section 6: the category
    "selects which lookup table".  Its enumerators are the labels of the
    [switch] in [parseType].  A C++ enum object may also hold a value that is
    none of its enumerators; such a value is [TOKEN_other v] and can only
    reach the [default] label. *)
Inductive InputType : Type :=
| TOKEN_OPT
| TOKEN_COST
| TOKEN_NET
| TOKEN_ACTI
| TOKEN_LAYER
| TOKEN_WEIGHTINI
| TOKEN_WEIGHT_DECAY
| TOKEN_UNKNOWN
| TOKEN_other (v : Z).

(** *** The search loop

    <<
    for (i = 0; i < tbl.size(); i++) {
      if (!strncasecmp(tbl[i].c_str(), ll.c_str(), tbl[i].size()))
        return (i);
    }
    ret = i - 1;
    >>
    [scan tbl ll i] runs the loop on the part [tbl] of the array that starts
    at index [i]:  [inl i] is the early [return (i)],  [inr i] is the value of
    the counter when the loop condition fails. *)
Fixpoint scan (tbl : list string) (ll : string) (i : Z) : Z + Z :=
  match tbl with
  | [] => inr i
  | e :: rest =>
      if strncasecmp e ll (String.length e) =? 0 then inl i
      else scan rest ll (to_uint (i + 1))
  end.

(** One [case] of the switch: the loop, then [ret = i - 1] ([i] is
    [unsigned], [ret] is [int]) and [return ret] (as [unsigned int]). *)
Definition lookup_token (tbl : list string) (ll : string) : Z :=
  match scan tbl ll 0 with
  | inl i => i
  | inr i => to_uint (to_int (to_uint (i - 1)))
  end.

Definition parseType (ll : string) (t : InputType) : Z :=
  match t with
  | TOKEN_OPT => lookup_token optimizer_string ll
  | TOKEN_COST => lookup_token cost_string ll
  | TOKEN_NET => lookup_token network_type_string ll
  | TOKEN_ACTI => lookup_token activation_string ll
  | TOKEN_LAYER => lookup_token layer_string ll
  | TOKEN_WEIGHTINI => lookup_token weight_ini_string ll
  | TOKEN_WEIGHT_DECAY => lookup_token weight_decay_string ll
  | TOKEN_UNKNOWN | TOKEN_other _ => to_uint 3
  end.

Definition parseLayerProperty (property : string) : Z :=
  lookup_token property_string property.

(** *** Vocabulary of the specification *)

(** Two bytes are equal up to case. *)
Definition ci_eq (a b : ascii) : bool := Ascii.eqb (tolower a) (tolower b).

(** [ci_prefix e tok]: the table entry [e] is a case-insensitive prefix of
    the token [tok] (the token starts with [e], up to case). *)
Fixpoint ci_prefix (e tok : string) : bool :=
  match e, tok with
  | EmptyString, _ => true
  | String _ _, EmptyString => false
  | String a e', String b tok' => ci_eq a b && ci_prefix e' tok'
  end.

(** Equality of two strings up to case. *)
Fixpoint ci_equal (s1 s2 : string) : bool :=
  match s1, s2 with
  | EmptyString, EmptyString => true
  | String a r1, String b r2 => ci_eq a b && ci_equal r1 r2
  | _, _ => false
  end.

(** [i] is the index of the first entry of [tbl] that matches [tok]. *)
Definition first_ci_match (tbl : list string) (tok : string) (i : nat) : Prop :=
  (exists e, nth_error tbl i = Some e /\ ci_prefix e tok = true) /\
  (forall j e', (j < i)%nat -> nth_error tbl j = Some e' -> ci_prefix e' tok = false).

(** No entry of [tbl] matches [tok]. *)
Definition no_ci_match (tbl : list string) (tok : string) : Prop :=
  forall e, In e tbl -> ci_prefix e tok = false.

(** The index reserved for "unknown": the last one of the table. *)
Definition unknown_index (tbl : list string) : Z := Z.of_nat (List.length tbl) - 1.

(** The entries that name something: all but the last ("unknown") one. *)
Definition real_entries (tbl : list string) : list string :=
  firstn (List.length tbl - 1) tbl.

(** A name the table does not know: equal, up to case, to no real entry. *)
Definition unknown_name (tbl : list string) (name : string) : bool :=
  forallb (fun e => negb (ci_equal e name)) (real_entries tbl).

(** The index of the first matching entry, computed. *)
Fixpoint find_ci (tbl : list string) (tok : string) : option nat :=
  match tbl with
  | [] => None
  | e :: rest => if ci_prefix e tok then Some O else option_map S (find_ci rest tok)
  end.

(** Two strings differ, up to case, at a position that both have. *)
Fixpoint ci_clash (s1 s2 : string) : bool :=
  match s1, s2 with
  | String a r1, String b r2 => negb (ci_eq a b) || ci_clash r1 r2
  | _, _ => false
  end.

(** Every entry clashes with every later one: none is a prefix of another. *)
Fixpoint prefix_free (tbl : list string) : bool :=
  match tbl with
  | [] => true
  | e :: rest => forallb (ci_clash e) rest && prefix_free rest
  end.

(** The lookups the module offers, each with the table it searches. *)
Inductive resolver_for : list string -> (string -> Z) -> Prop :=
| rf_opt : resolver_for optimizer_string (fun ll => parseType ll TOKEN_OPT)
| rf_cost : resolver_for cost_string (fun ll => parseType ll TOKEN_COST)
| rf_net : resolver_for network_type_string (fun ll => parseType ll TOKEN_NET)
| rf_acti : resolver_for activation_string (fun ll => parseType ll TOKEN_ACTI)
| rf_layer : resolver_for layer_string (fun ll => parseType ll TOKEN_LAYER)
| rf_weightini :
    resolver_for weight_ini_string (fun ll => parseType ll TOKEN_WEIGHTINI)
| rf_weight_decay :
    resolver_for weight_decay_string (fun ll => parseType ll TOKEN_WEIGHT_DECAY)
| rf_property : resolver_for property_string parseLayerProperty.

(** A string without NUL bytes (every table entry is one). *)
Fixpoint nul_free (s : string) : bool :=
  match s with
  | EmptyString => true
  | String c r => negb (Ascii.eqb c NUL) && nul_free r
  end.

(** What the seven tables and the property table have in common. *)
Record well_formed_table (tbl : list string) : Prop := {
  wf_nul_free : forallb nul_free tbl = true;
  wf_nonempty : (1 <= List.length tbl)%nat;
  wf_small : Z.of_nat (List.length tbl) < 2 ^ 31
}.

End ParseUtil.

(* ===================================================================== *)
(** ** Part II.  optimizer_devel.h                                        *)
(* ===================================================================== *)

Module OptimizerDevel.

(** *** Floating-point data

    IEEE-754 data are [spec_float]s in canonical form:  C++ [double] is
    binary64 (53-bit significand). *)

Definition is_binary64 (x : spec_float) : bool := valid_binary 53 1024 x.

(** a value of C++ type [double] *)
Record double : Type := mk_double {
  double_val : spec_float;
  double_ok : is_binary64 double_val = true
}.

(** *** Outcomes of a call *)

(** Modelled from the spec: the exception classes are missing from the
    sources.  Section 7 names the error conditions. *)
Inductive error : Type := ConfigurationError | ContractViolation | IOFailure.

(** A call returns, throws, or has no defined behaviour (a call through a
    dangling pointer, a broken precondition). *)
Inductive outcome (A : Type) : Type :=
| Returns (a : A)
| Throws (e : error)
| Undefined.

Arguments Returns {A} a.
Arguments Throws {A} e.
Arguments Undefined {A}.

(** [std::ifstream] / [std::ofstream]: the bytes still to be read, resp. the
    bytes written so far. *)
Definition stream : Type := list byte.

Section Interface.

(** The data members of optimizer objects, and the collaborators that the
    header only names ([optimizer_context.h], [tensor.h], [Exporter]). *)
Context {Fields RunOptimizerContext TensorDim Exporter ExportMethods : Type}.

(** A non-const member function: runs on the object's data members, may
    change them, and returns, throws or is undefined. *)
Definition member (A : Type) : Type := Fields -> outcome A * Fields.

(** [class Optimizer]: the virtual member functions of a (concrete)
    optimizer class.  A parameter passed by non-const reference comes back
    in the result.  [exportTo] and [finalize] have a body in the base
    class, so a class may leave them out ([None]); [const] members cannot
    change the data members. *)
Record Optimizer : Type := {
  getDefaultLearningRate : Fields -> double;
  applyGradient : RunOptimizerContext -> member RunOptimizerContext;
  setProperty : list string -> member unit;
  exportTo_override :
    option (Exporter -> ExportMethods -> Fields -> outcome unit * Exporter);
  finalize_override : option (member unit);
  read : stream -> member stream;
  save : stream -> member stream;
  getOptimizerVariableDim : TensorDim -> member (list TensorDim);
  getType : Fields -> string
}.

(** <<virtual void exportTo(Exporter &, const ExportMethods &) const {}>> *)
Definition Optimizer_exportTo (exporter : Exporter) (method : ExportMethods)
    (this : Fields) : outcome unit * Exporter :=
  (Returns tt, exporter).

(** <<virtual void finalize(){};>> *)
Definition Optimizer_finalize : member unit :=
  fun this => (Returns tt, this).

(** An object: its dynamic class and its data members. *)
Record object : Type := { vptr : Optimizer; fields : Fields }.

(** The free store, and computations on it. *)
Definition M (A : Type) : Type := gmap positive object -> outcome A * gmap positive object.

Definition ret {A : Type} (a : A) : M A := fun h => (Returns a, h).

Definition bind {A B : Type} (m : M A) (k : A -> M B) : M B :=
  fun h =>
    match m h with
    | (Returns a, h') => k a h'
    | (Throws e, h') => (Throws e, h')
    | (Undefined, h') => (Undefined, h')
    end.

(** [p->f(...)] for a non-const virtual member [f] *)
Definition invoke {A : Type} (p : positive) (f : Optimizer -> member A) : M A :=
  fun h =>
    match h !! p with
    | None => (Undefined, h)
    | Some o =>
        let (r, this') := f (vptr o) (fields o) in
        (r, <[p := {| vptr := vptr o; fields := this' |}]> h)
    end.

(** [p->f(...)] for a const virtual member [f] *)
Definition invoke_const {A : Type} (p : positive) (f : Optimizer -> Fields -> outcome A) : M A :=
  fun h =>
    match h !! p with
    | None => (Undefined, h)
    | Some o => (f (vptr o) (fields o), h)
    end.

Definition call_getDefaultLearningRate (p : positive) : M double :=
  invoke_const p (fun c this => Returns (getDefaultLearningRate c this)).

Definition call_setProperty (p : positive) (values : list string) : M unit :=
  invoke p (fun c => setProperty c values).

Definition call_finalize (p : positive) : M unit :=
  invoke p (fun c =>
    match finalize_override c with
    | Some body => body
    | None => Optimizer_finalize
    end).

(** [p->exportTo(exporter, method)]: the exporter is passed by reference,
    so the call yields the exporter as the callee leaves it. *)
Definition call_exportTo (p : positive) (exporter : Exporter) (m : ExportMethods)
    : gmap positive object -> (outcome unit * Exporter) * gmap positive object :=
  fun h =>
    match h !! p with
    | None => ((Undefined, exporter), h)
    | Some o =>
        match exportTo_override (vptr o) with
        | Some body => (body exporter m (fields o), h)
        | None => (Optimizer_exportTo exporter m (fields o), h)
        end
    end.

(** A class [T] derived from [Optimizer] that can be default-constructed. *)
Record concrete : Type := {
  class_of : Optimizer;
  construct : Fields
}.

(** [std::make_unique<T>()]: a new object at an address not in use. *)
Definition make_unique (T : concrete) : M positive :=
  fun h =>
    let p := fresh (dom h) in
    (Returns p, <[p := {| vptr := class_of T; fields := construct T |}]> h).

(** What a live [std::unique_ptr] does around a computation: when an
    exception leaves the scope, the object it owns is deleted. *)
Definition owning {A : Type} (ptr : positive) (m : M A) : M A :=
  fun h =>
    match m h with
    | (Throws e, h') => (Throws e, delete ptr h')
    | r => r
    end.

(** <<
    std::unique_ptr<Optimizer> ptr = std::make_unique<T>();
    ptr->setProperty(props);
    return ptr;
    >> *)
Definition createOptimizer (T : concrete) (props : list string) : M positive :=
  bind (make_unique T) (fun ptr =>
  owning ptr (
    bind (call_setProperty ptr props) (fun _ =>
    ret ptr))).

(** "The call produces one new instance, configured, and hands it to the
    caller": the result is an address that was not in use, and the store
    has grown by exactly the object at that address. *)
Definition hands_back_instance (T : concrete) (props : list string)
    (h : gmap positive object) : Prop :=
  exists p this',
    h !! p = None /\
    createOptimizer T props h =
      (Returns p, <[p := {| vptr := class_of T; fields := this' |}]> h).

(** The plugin descriptor. *)
Definition CreateOptimizerFunc : Type := M positive.

Definition DestroyOptimizerFunc : Type := positive -> M unit.

Record OptimizerPluggable : Type := {
  createfunc : CreateOptimizerFunc;
  destroyfunc : DestroyOptimizerFunc
}.

End Interface.

Arguments Optimizer : clear implicits.
Arguments object : clear implicits.
Arguments concrete : clear implicits.

(** *** A small concrete optimizer

    No data members, no properties (so every property token is an unknown
    key and is refused), default learning rate 0.01, and no override of
    [exportTo] or [finalize]. *)

Definition rate_0_01 : double :=
  mk_double (S754_finite false 0x147AE147AE147B (-59)) eq_refl.

Definition plain : Optimizer unit unit unit unit unit := {|
  getDefaultLearningRate := fun _ => rate_0_01;
  applyGradient := fun context this => (Returns context, this);
  setProperty := fun values this =>
    match values with
    | [] => (Returns tt, this)
    | _ :: _ => (Throws ConfigurationError, this)
    end;
  exportTo_override := None;
  finalize_override := None;
  read := fun file this => (Returns file, this);
  save := fun file this => (Returns file, this);
  getOptimizerVariableDim := fun _ this => (Returns [], this);
  getType := fun _ => "plain"%string
|}.

Definition Plain : concrete unit unit unit unit unit :=
  {| class_of := plain; construct := tt |}.

End OptimizerDevel.

(* ===================================================================== *)
(** ** Consumers of the resolver, and the checkpoint format               *)
(* ===================================================================== *)

Module Resolution.

Import ParseUtil OptimizerDevel.

Local Open Scope Z_scope.

(** Modelled from the spec: the code that consumes a resolved index (the key
    handling of [Optimizer::setProperty] and the registry's lookup of an
    algorithm identifier) is missing from the sources.  Section 4.3: the core
    "treats the unknown sentinel as a hard configuration error, never as a
    default choice". *)
Definition check_resolved (tbl : list string) (index : Z) : outcome Z :=
  if index =? unknown_index tbl then Throws ConfigurationError else Returns index.

(** Modelled from the spec: the registry's resolution of an algorithm
    identifier, missing from the sources (sections 4.2 and 4.3). *)
Definition resolve_algorithm (identifier : string) : outcome Z :=
  check_resolved optimizer_string (parseType identifier TOKEN_OPT).

(** Modelled from the spec: the resolution of one property token, missing
    from the sources (sections 4.1 and 4.3). *)
Definition resolve_property (token : string) : outcome Z :=
  check_resolved property_string (parseLayerProperty token).

(** "An unknown name always raises ConfigurationError": what that says of one
    lookup [f] on table [tbl] and one name. *)
Definition unknown_is_refused (tbl : list string) (f : string -> Z) (name : string) : Prop :=
  unknown_name tbl name = true ->
  f name = unknown_index tbl /\ check_resolved tbl (f name) = Throws ConfigurationError.

End Resolution.

Module Checkpoint.

Import OptimizerDevel.

Section Format.

(** The hyperparameters of an algorithm and the context of one update. *)
Context {Hyper RunOptimizerContext : Type}.

(** Modelled from the spec: the data members of an optimizer instance
    (the concrete classes are missing from the sources).  Section 3: an
    instance holds hyperparameters, set through property configuration, and
    scalar book-keeping.  A scalar is kept as its bytes. *)
Record instance : Type := {
  hyper : Hyper;
  scalars : list (list byte)
}.

(** The widths, in bytes, of the algorithm's scalar fields, in stream
    order, and its update rule on (hyperparameters, scalars, context). *)
Variable widths : list nat.
Variable update :
  Hyper -> list (list byte) -> RunOptimizerContext ->
  list (list byte) * RunOptimizerContext.

(** Every scalar field has its declared width. *)
Definition fixed_width (this : instance) : Prop :=
  Forall2 (fun w field => List.length field = w) widths (scalars this).

(** Modelled from the spec: the body of [Optimizer::save], missing from the
    sources.  Section 6: the checkpoint is "an ordered sequence of
    fixed-width scalar fields", with no header. *)
Definition save (file : stream) : instance -> outcome stream * instance :=
  fun this => (Returns (file ++ concat (scalars this)), this).

(** Cut a stream into fields of the given widths. *)
Fixpoint take_fields (ws : list nat) (file : stream) : option (list (list byte) * stream) :=
  match ws with
  | [] => Some ([], file)
  | w :: ws' =>
      if (List.length file <? w)%nat then None
      else
        match take_fields ws' (skipn w file) with
        | Some (fs, rest) => Some (firstn w file :: fs, rest)
        | None => None
        end
  end.

(** Modelled from the spec: the body of [Optimizer::read], missing from the
    sources.  It reads the fields back in the same order; section 7: a read
    failure "must not mutate the instance". *)
Definition read (file : stream) : instance -> outcome stream * instance :=
  fun this =>
    match take_fields widths file with
    | Some (fs, rest) => (Returns rest, {| hyper := hyper this; scalars := fs |})
    | None => (Throws IOFailure, this)
    end.

(** Modelled from the spec: [applyGradient] of a concrete class, missing
    from the sources.  Section 4.1: it updates the bound variable (in the
    context) from the gradient, the hyperparameters and the instance's
    state. *)
Definition applyGradient (context : RunOptimizerContext)
    : instance -> outcome RunOptimizerContext * instance :=
  fun this =>
    let (s', context') := update (hyper this) (scalars this) context in
    (Returns context', {| hyper := hyper this; scalars := s' |}).

(** Feed an instance a sequence of contexts; the contexts as it leaves
    them, step by step, and the instance at the end. *)
Fixpoint train (this : instance) (contexts : list RunOptimizerContext)
    : list RunOptimizerContext * instance :=
  match contexts with
  | [] => ([], this)
  | c :: cs =>
      match applyGradient c this with
      | (Returns c', this') =>
          let (out, final) := train this' cs in (c' :: out, final)
      | (_, this') => ([], this')
      end
  end.

End Format.

End Checkpoint.

(* ===================================================================== *)
(** ** Part III.  Properties of the token resolver                        *)
(* ===================================================================== *)

Import ParseUtil.

Section ResolverExamples.

Local Open Scope Z_scope.
Local Open Scope string_scope.

Example parseType_sgd : parseType "sgd" TOKEN_OPT = 0.
Proof. reflexivity. Qed.

Example parseType_Adam : parseType "Adam" TOKEN_OPT = 1.
Proof. reflexivity. Qed.

Example parseType_cross_entropy : parseType "cross_entropy" TOKEN_COST = 1.
Proof. reflexivity. Qed.

Example parseType_SOFTMAX : parseType "SOFTMAX" TOKEN_ACTI = 3.
Proof. reflexivity. Qed.

Example parseType_he_uniform : parseType "he_uniform" TOKEN_WEIGHTINI = 5.
Proof. reflexivity. Qed.

Example parseType_empty : parseType "" TOKEN_LAYER = 3.
Proof. reflexivity. Qed.

Example parseLayerProperty_weight_decay : parseLayerProperty "Weight_Decay=l2norm" = 6.
Proof. reflexivity. Qed.

Example strncasecmp_short_token : strncasecmp "sigmoid" "sig" 7 = 109.
Proof. reflexivity. Qed.

End ResolverExamples.

Section ResolverFacts.

Local Open Scope Z_scope.

Lemma tolower_NUL (c : ascii) : tolower c = NUL -> c = NUL.
Proof.
  destruct c as [[] [] [] [] [] [] [] []]; vm_compute; congruence.
Qed.

Lemma uchar_diff_zero (a b : ascii) : (uchar a - uchar b =? 0) = Ascii.eqb a b.
Proof.
  unfold uchar.
  destruct (Ascii.eqb_spec a b) as [-> | Hne].
  - rewrite Z.sub_diag. reflexivity.
  - apply Z.eqb_neq. intros Heq. apply Hne.
    rewrite <- (ascii_N_embedding a), <- (ascii_N_embedding b).
    f_equal. lia.
Qed.

(** The comparison made by the loop is the specification's prefix match:
    [strncasecmp(e, tok, e.size())] is 0 exactly when [tok] starts with [e]
    up to case. *)
Lemma strncasecmp_ci_prefix (e : string) :
  nul_free e = true ->
  forall tok, (strncasecmp e tok (String.length e) =? 0) = ci_prefix e tok.
Proof.
  induction e as [| a e IH]; intros Hnul tok; [reflexivity |].
  cbn [nul_free] in Hnul. apply andb_true_iff in Hnul as [Ha He].
  cbn [String.length strncasecmp peek advance].
  rewrite uchar_diff_zero.
  destruct tok as [| b tok]; cbn [peek advance ci_prefix].
  - (* the token has ended: its terminator differs from [a] *)
    replace (tolower NUL) with NUL by reflexivity.
    destruct (Ascii.eqb_spec (tolower a) NUL) as [Hz | Hz]; cbn [negb].
    + apply tolower_NUL in Hz. subst a. discriminate Ha.
    + apply Z.eqb_neq. intros H0. apply Hz.
      apply Ascii.eqb_eq. rewrite <- uchar_diff_zero. apply Z.eqb_eq.
      replace (tolower NUL) with NUL in H0 by reflexivity. exact H0.
  - unfold ci_eq.
    destruct (Ascii.eqb (tolower a) (tolower b)) eqn:Hab; cbn [negb andb].
    + apply negb_true_iff in Ha. rewrite Ha. apply IH. exact He.
    + apply Z.eqb_neq. intros H0.
      assert (Ascii.eqb (tolower a) (tolower b) = true) as Habs.
      { rewrite <- uchar_diff_zero. apply Z.eqb_eq. exact H0. }
      congruence.
Qed.

Lemma to_uint_small (z : Z) : 0 <= z < 2 ^ 32 -> to_uint z = z.
Proof. intros H. unfold to_uint. apply Z.mod_small. exact H. Qed.

Lemma to_int_small (z : Z) : 0 <= z < 2 ^ 31 -> to_int z = z.
Proof.
  intros H. unfold to_int. rewrite Z.mod_small by lia.
  destruct (Z.ltb_spec z (2 ^ 31)); lia.
Qed.

Lemma first_ci_match_here (e : string) (tbl : list string) (tok : string) :
  ci_prefix e tok = true -> first_ci_match (e :: tbl) tok 0.
Proof.
  intros H. split.
  - exists e. split; [reflexivity | exact H].
  - intros j e' Hj. lia.
Qed.

Lemma first_ci_match_later (e : string) (tbl : list string) (tok : string) (k : nat) :
  ci_prefix e tok = false ->
  first_ci_match tbl tok k -> first_ci_match (e :: tbl) tok (S k).
Proof.
  intros He [[e0 [Hn Hp]] Hbefore]. split.
  - exists e0. split; [exact Hn | exact Hp].
  - intros [| j] e' Hj Hnth; cbn in Hnth.
    + congruence.
    + apply (Hbefore j); [lia | exact Hnth].
Qed.

Lemma first_ci_match_unique (tbl : list string) (tok : string) (i k : nat) :
  first_ci_match tbl tok i -> first_ci_match tbl tok k -> i = k.
Proof.
  intros [[ei [Hi Hpi]] Hbi] [[ek [Hk Hpk]] Hbk].
  destruct (Nat.lt_trichotomy i k) as [Hlt | [Heq | Hgt]]; [| exact Heq |].
  - specialize (Hbk i ei Hlt Hi). congruence.
  - specialize (Hbi k ek Hgt Hk). congruence.
Qed.

Lemma first_ci_match_not_none (tbl : list string) (tok : string) (i : nat) :
  first_ci_match tbl tok i -> no_ci_match tbl tok -> False.
Proof.
  intros [[e [Hn Hp]] _] Hnone.
  apply nth_error_In in Hn. specialize (Hnone e Hn). congruence.
Qed.

(** The loop, from any position of the array. *)
Lemma scan_spec (tbl : list string) (tok : string) :
  forallb nul_free tbl = true ->
  forall i, 0 <= i -> i + Z.of_nat (List.length tbl) < 2 ^ 32 ->
  match scan tbl tok i with
  | inl r => exists k, r = i + Z.of_nat k /\ first_ci_match tbl tok k
  | inr r => r = i + Z.of_nat (List.length tbl) /\ no_ci_match tbl tok
  end.
Proof.
  induction tbl as [| e tbl IH]; intros Hnul i Hi Hbound.
  - cbn. split; [lia | intros e []].
  - cbn [forallb] in Hnul. apply andb_true_iff in Hnul as [He Htbl].
    cbn [scan]. rewrite (strncasecmp_ci_prefix e He).
    destruct (ci_prefix e tok) eqn:Hp.
    + exists 0%nat. split; [lia | apply first_ci_match_here; exact Hp].
    + cbn [List.length] in Hbound.
      rewrite to_uint_small by lia.
      specialize (IH Htbl (i + 1) ltac:(lia) ltac:(lia)).
      destruct (scan tbl tok (i + 1)) as [r | r].
      * destruct IH as [k [Hr Hk]]. exists (S k).
        split; [lia | apply first_ci_match_later; assumption].
      * destruct IH as [Hr Hnone]. split; [cbn [List.length]; lia |].
        intros e' [<- | Hin]; [exact Hp | apply Hnone; exact Hin].
Qed.

(** One [case] of the switch, for a table as the source has them. *)
Lemma lookup_token_spec (tbl : list string) (tok : string) :
  well_formed_table tbl ->
  (exists k, lookup_token tbl tok = Z.of_nat k /\ first_ci_match tbl tok k) \/
  (lookup_token tbl tok = unknown_index tbl /\ no_ci_match tbl tok).
Proof.
  intros [Hnul Hne Hsmall].
  pose proof (scan_spec tbl tok Hnul 0 ltac:(lia) ltac:(lia)) as H.
  unfold lookup_token. destruct (scan tbl tok 0) as [r | r].
  - destruct H as [k [Hr Hk]]. left. exists k. split; [lia | exact Hk].
  - destruct H as [Hr Hnone]. right. split; [| exact Hnone].
    unfold unknown_index. subst r.
    rewrite (to_uint_small (0 + _ - 1)) by lia.
    rewrite to_int_small by lia. rewrite to_uint_small by lia. lia.
Qed.

Lemma lookup_token_first (tbl : list string) (tok : string) (i : nat) :
  well_formed_table tbl ->
  first_ci_match tbl tok i -> lookup_token tbl tok = Z.of_nat i.
Proof.
  intros Hwf Hi.
  destruct (lookup_token_spec tbl tok Hwf) as [[k [Hk Hfk]] | [_ Hnone]].
  - rewrite Hk. f_equal. apply (first_ci_match_unique tbl tok); assumption.
  - exfalso. apply (first_ci_match_not_none tbl tok i); assumption.
Qed.

Lemma lookup_token_none (tbl : list string) (tok : string) :
  well_formed_table tbl ->
  no_ci_match tbl tok -> lookup_token tbl tok = unknown_index tbl.
Proof.
  intros Hwf Hnone.
  destruct (lookup_token_spec tbl tok Hwf) as [[k [Hk Hfk]] | [Hu _]].
  - exfalso. apply (first_ci_match_not_none tbl tok k); assumption.
  - exact Hu.
Qed.

(** Every lookup of the module is [lookup_token] on a well-formed table. *)
Lemma resolver_for_lookup (tbl : list string) (f : string -> Z) :
  resolver_for tbl f ->
  well_formed_table tbl /\ forall tok, f tok = lookup_token tbl tok.
Proof.
  intros []; (split; [split; [reflexivity | cbn; lia | cbn; lia] | reflexivity]).
Qed.

End ResolverFacts.

Section PrefixFacts.

Local Open Scope Z_scope.

Lemma ci_eq_refl (a : ascii) : ci_eq a a = true.
Proof. unfold ci_eq. apply Ascii.eqb_refl. Qed.

Lemma ci_eq_trans (a b c : ascii) :
  ci_eq a b = true -> ci_eq b c = true -> ci_eq a c = true.
Proof.
  unfold ci_eq. rewrite !Ascii.eqb_eq. congruence.
Qed.

Lemma ci_prefix_app (e suffix : string) : ci_prefix e (e ++ suffix) = true.
Proof.
  induction e as [| a e IH]; [reflexivity |].
  simpl. rewrite ci_eq_refl. exact IH.
Qed.

Lemma ci_prefix_length (e tok : string) :
  ci_prefix e tok = true -> (String.length e <= String.length tok)%nat.
Proof.
  revert tok. induction e as [| a e IH]; intros [| b tok] H;
    cbn [ci_prefix String.length] in *; try lia; try discriminate.
  apply andb_true_iff in H as [_ H]. specialize (IH tok H). lia.
Qed.

Lemma ci_prefix_trans (s1 s2 s3 : string) :
  ci_prefix s1 s2 = true -> ci_prefix s2 s3 = true -> ci_prefix s1 s3 = true.
Proof.
  revert s2 s3. induction s1 as [| a s1 IH]; intros [| b s2] [| c s3] H12 H23;
    cbn [ci_prefix] in *; try reflexivity; try discriminate.
  apply andb_true_iff in H12 as [Hab H12].
  apply andb_true_iff in H23 as [Hbc H23].
  rewrite (ci_eq_trans a b c Hab Hbc). cbn [andb]. exact (IH s2 s3 H12 H23).
Qed.

Lemma ci_clash_not_prefix (e1 e2 : string) :
  ci_clash e1 e2 = true -> forall suffix, ci_prefix e1 (e2 ++ suffix) = false.
Proof.
  revert e2. induction e1 as [| a e1 IH]; intros [| b e2] H suffix;
    cbn [ci_clash] in H; try discriminate.
  simpl.
  destruct (ci_eq a b); cbn [negb orb andb] in *; [apply IH; exact H | reflexivity].
Qed.

Lemma find_ci_first (tbl : list string) (tok : string) (i : nat) :
  find_ci tbl tok = Some i -> first_ci_match tbl tok i.
Proof.
  revert i. induction tbl as [| e tbl IH]; intros i H; cbn in H; [discriminate |].
  destruct (ci_prefix e tok) eqn:Hp.
  - injection H as <-. apply first_ci_match_here. exact Hp.
  - destruct (find_ci tbl tok) as [k |]; [| discriminate].
    injection H as <-. apply first_ci_match_later; [exact Hp | apply IH; reflexivity].
Qed.

Lemma find_ci_none (tbl : list string) (tok : string) :
  find_ci tbl tok = None -> no_ci_match tbl tok.
Proof.
  induction tbl as [| e tbl IH]; intros H; cbn in H; [intros e [] |].
  destruct (ci_prefix e tok) eqn:Hp; [discriminate |].
  destruct (find_ci tbl tok); [discriminate |].
  intros e' [<- | Hin]; [exact Hp | apply IH; [reflexivity | exact Hin]].
Qed.

(** In a prefix-free table, an entry followed by anything matches at the
    entry's own index first. *)
Lemma prefix_free_first_match (tbl : list string) :
  prefix_free tbl = true ->
  forall i e suffix, nth_error tbl i = Some e ->
  first_ci_match tbl (e ++ suffix) i.
Proof.
  induction tbl as [| e0 tbl IH]; intros Hpf i e suffix Hnth.
  - destruct i; discriminate Hnth.
  - cbn [prefix_free] in Hpf. apply andb_true_iff in Hpf as [Hfirst Hrest].
    destruct i as [| i]; cbn in Hnth.
    + injection Hnth as ->. apply first_ci_match_here. apply ci_prefix_app.
    + apply first_ci_match_later; [| apply IH; assumption].
      apply ci_clash_not_prefix.
      rewrite forallb_forall in Hfirst. apply Hfirst.
      apply nth_error_In with (n := i). exact Hnth.
Qed.

Lemma resolver_for_prefix_free (tbl : list string) (f : string -> Z) :
  resolver_for tbl f -> prefix_free tbl = true.
Proof. intros []; reflexivity. Qed.

Lemma real_entries_nth (tbl : list string) (i : nat) (e : string) :
  nth_error (real_entries tbl) i = Some e ->
  (i < List.length tbl - 1)%nat /\ nth_error tbl i = Some e.
Proof.
  unfold real_entries. intros H.
  assert (i < List.length tbl - 1)%nat as Hi.
  { destruct (Nat.lt_ge_cases i (List.length tbl - 1)) as [Hlt | Hge]; [exact Hlt |].
    assert (nth_error (firstn (List.length tbl - 1) tbl) i = None) as Hnone.
    { apply nth_error_None. rewrite length_firstn. lia. }
    congruence. }
  split; [exact Hi |].
  rewrite <- (firstn_skipn (List.length tbl - 1) tbl) at 1.
  rewrite nth_error_app1; [exact H |].
  rewrite length_firstn. lia.
Qed.

Lemma nth_real_entries (tbl : list string) (i : nat) (e : string) :
  (i < List.length tbl - 1)%nat -> nth_error tbl i = Some e ->
  In e (real_entries tbl).
Proof.
  intros Hi Hnth. unfold real_entries.
  apply nth_error_In with (n := i).
  rewrite <- (firstn_skipn (List.length tbl - 1) tbl) in Hnth at 1.
  rewrite nth_error_app1 in Hnth; [exact Hnth |].
  rewrite length_firstn. lia.
Qed.

(** A token that no real entry matches resolves to the unknown index. *)
Lemma lookup_token_unmatched (tbl : list string) (tok : string) :
  well_formed_table tbl ->
  (forall e, In e (real_entries tbl) -> ci_prefix e tok = false) ->
  lookup_token tbl tok = unknown_index tbl.
Proof.
  intros Hwf Hreal.
  destruct (lookup_token_spec tbl tok Hwf) as [[k [Hk Hfk]] | [Hu _]]; [| exact Hu].
  destruct Hfk as [[e [Hnth Hp]] _].
  assert (k < List.length tbl)%nat as Hlt.
  { apply nth_error_Some. congruence. }
  destruct (Nat.eq_dec k (List.length tbl - 1)%nat) as [-> | Hne].
  - rewrite Hk. unfold unknown_index. destruct Hwf. lia.
  - rewrite (Hreal e) in Hp; [discriminate |].
    apply (nth_real_entries tbl k); [lia | exact Hnth].
Qed.

(** A token shorter than a real entry never resolves to that entry. *)
Lemma shorter_token_not_resolved (tbl : list string) (f : string -> Z)
    (i : nat) (e tok : string) :
  resolver_for tbl f ->
  nth_error (real_entries tbl) i = Some e ->
  (String.length tok < String.length e)%nat ->
  f tok <> Z.of_nat i.
Proof.
  intros Hres Hnth Hlen.
  destruct (resolver_for_lookup tbl f Hres) as [Hwf Hf]. rewrite Hf.
  apply real_entries_nth in Hnth as [Hi Hnth].
  destruct (lookup_token_spec tbl tok Hwf) as [[k [Hk Hfk]] | [Hu _]].
  - rewrite Hk. intros Heq. apply Nat2Z.inj in Heq. subst k.
    destruct Hfk as [[e' [Hnth' Hp]] _].
    assert (e' = e) by congruence. subst e'.
    apply ci_prefix_length in Hp. lia.
  - rewrite Hu. unfold unknown_index. lia.
Qed.

End PrefixFacts.

Section ResolverClaims.

Import Resolution OptimizerDevel.

Local Open Scope Z_scope.
Local Open Scope string_scope.

(** C1.  For every token and every lookup of the module ([parseType] on one
    of its seven tables, [parseLayerProperty] on the property table), the
    result is the index of the first table entry that is a case-insensitive
    prefix of the token; when no entry is, the result is the unknown index,
    the last index of that table.  One of the two cases always applies. *)
Theorem resolver_first_prefix_match (tbl : list string) (f : string -> Z) (tok : string) :
  resolver_for tbl f ->
  (forall i, first_ci_match tbl tok i -> f tok = Z.of_nat i) /\
  (no_ci_match tbl tok -> f tok = unknown_index tbl) /\
  ((exists i, first_ci_match tbl tok i) \/ no_ci_match tbl tok).
Proof.
  intros Hres. destruct (resolver_for_lookup tbl f Hres) as [Hwf Hf].
  rewrite Hf. repeat split.
  - intros i Hi. apply lookup_token_first; assumption.
  - intros Hnone. apply lookup_token_none; assumption.
  - destruct (lookup_token_spec tbl tok Hwf) as [[k [_ Hk]] | [_ Hnone]].
    + left. exists k. exact Hk.
    + right. exact Hnone.
Qed.

Lemma resolver_first_prefix_match_witness :
  resolver_for optimizer_string (fun ll => parseType ll TOKEN_OPT) /\
  first_ci_match optimizer_string "ADAM=0.9" 1 /\
  parseType "ADAM=0.9" TOKEN_OPT = 1.
Proof.
  split; [exact rf_opt |].
  split; [apply find_ci_first; reflexivity |].
  apply (proj1 (resolver_first_prefix_match optimizer_string
                  (fun ll => parseType ll TOKEN_OPT) "ADAM=0.9" rf_opt) 1%nat).
  apply find_ci_first. reflexivity.
Defined.

(** C2, as stated, fails: "adamant" is no algorithm identifier of the
    optimizer table, yet it resolves to index 1 (the entry "adam") and is
    not refused. *)
Lemma unknown_identifier_resolved :
  ~ unknown_is_refused optimizer_string (fun ll => parseType ll TOKEN_OPT) "adamant".
Proof.
  intros H. destruct (H eq_refl) as [Hidx _]. vm_compute in Hidx. discriminate Hidx.
Qed.

(** C2, amended.  A token that starts, up to case, with no real entry of the
    table is resolved to the unknown index by every lookup, never to the index
    of a real entry, and the consumer of the index raises ConfigurationError. *)
Theorem unmatched_token_refused (tbl : list string) (f : string -> Z) (tok : string) :
  resolver_for tbl f ->
  (forall e, In e (real_entries tbl) -> ci_prefix e tok = false) ->
  f tok = unknown_index tbl /\
  (forall i e, nth_error (real_entries tbl) i = Some e -> f tok <> Z.of_nat i) /\
  check_resolved tbl (f tok) = Throws ConfigurationError.
Proof.
  intros Hres Hreal. destruct (resolver_for_lookup tbl f Hres) as [Hwf Hf].
  assert (f tok = unknown_index tbl) as Hu.
  { rewrite Hf. apply lookup_token_unmatched; assumption. }
  split; [exact Hu |]. split.
  - intros i e Hnth. apply real_entries_nth in Hnth as [Hi _].
    rewrite Hu. unfold unknown_index. lia.
  - unfold check_resolved. rewrite Hu, Z.eqb_refl. reflexivity.
Qed.

Lemma unmatched_token_refused_witness :
  resolve_algorithm "made_up_optimizer" = Throws ConfigurationError /\
  resolve_property "not_a_real_key=1" = Throws ConfigurationError.
Proof.
  split.
  - apply (unmatched_token_refused optimizer_string
             (fun ll => parseType ll TOKEN_OPT) "made_up_optimizer" rf_opt).
    intros e He. cbn in He.
    destruct He as [<- | [<- | []]]; reflexivity.
  - apply (unmatched_token_refused property_string parseLayerProperty
             "not_a_real_key=1" rf_property).
    intros e He. cbn in He.
    repeat (destruct He as [<- | He]; [reflexivity |]). destruct He.
Defined.

(** C3, as stated, fails: under the activation category "sig" is not
    resolved to the index of "sigmoid". *)
Lemma sig_not_resolved_to_sigmoid :
  nth_error activation_string 1 = Some "sigmoid" /\
  parseType "sig" TOKEN_ACTI <> 1.
Proof.
  split; [reflexivity |]. vm_compute. discriminate.
Qed.

(** C3, amended.  Abbreviated tokens are not accepted: a proper prefix of
    "sigmoid" (in any letter case), such as "sig", is resolved under the
    activation category to the unknown index 4 and not to the index 1 of
    "sigmoid". *)
Theorem abbreviation_not_accepted (tok : string) :
  ci_prefix tok "sigmoid" = true ->
  (String.length tok < String.length "sigmoid")%nat ->
  parseType tok TOKEN_ACTI = 4 /\
  unknown_index activation_string = 4 /\
  parseType tok TOKEN_ACTI <> 1.
Proof.
  intros Hpre Hlen.
  assert (parseType tok TOKEN_ACTI = 4) as H4.
  { change (lookup_token activation_string tok = unknown_index activation_string).
    apply lookup_token_none.
    { split; [reflexivity | cbn; lia | cbn; lia]. }
    intros e He.
    destruct (ci_prefix e tok) eqn:Hp; [exfalso | reflexivity].
    pose proof (ci_prefix_trans e tok "sigmoid" Hp Hpre) as Hes.
    pose proof (ci_prefix_length e tok Hp) as Hle.
    cbn in He.
    destruct He as [<- | [<- | [<- | [<- | [<- | []]]]]];
      try discriminate Hes.
    lia. }
  split; [exact H4 |]. split; [reflexivity |]. rewrite H4. discriminate.
Qed.

Lemma abbreviation_not_accepted_witness :
  parseType "sig" TOKEN_ACTI = 4 /\
  unknown_index activation_string = 4 /\
  parseType "sig" TOKEN_ACTI <> 1.
Proof.
  apply (abbreviation_not_accepted "sig"); [reflexivity | cbn; lia].
Defined.

(** C9.  With category [TOKEN_UNKNOWN], or a category value that is none of
    the enumerators, [parseType] returns 3 whatever the token is.  3 is the
    unknown index of the four-entry tables (network type, layer) and differs
    from the unknown index 2 of the three-entry tables (optimizer, cost). *)
Theorem parseType_unknown_category (tok : string) :
  parseType tok TOKEN_UNKNOWN = 3 /\
  (forall v, parseType tok (TOKEN_other v) = 3) /\
  unknown_index network_type_string = 3 /\
  unknown_index layer_string = 3 /\
  unknown_index optimizer_string = 2 /\
  unknown_index cost_string = 2.
Proof.
  repeat split.
Qed.

(** C10.  Matching never checks that the token ends where the entry ends: in
    every lookup, a table entry followed by any further characters resolves
    to that entry's index, which for a real entry is not the unknown index. *)
Theorem resolver_accepts_suffix (tbl : list string) (f : string -> Z)
    (i : nat) (e suffix : string) :
  resolver_for tbl f ->
  nth_error tbl i = Some e ->
  f (e ++ suffix) = Z.of_nat i /\
  ((i < List.length tbl - 1)%nat -> f (e ++ suffix) <> unknown_index tbl).
Proof.
  intros Hres Hnth. destruct (resolver_for_lookup tbl f Hres) as [Hwf Hf].
  assert (f (e ++ suffix) = Z.of_nat i) as Hi.
  { rewrite Hf. apply lookup_token_first; [exact Hwf |].
    apply prefix_free_first_match; [| exact Hnth].
    apply (resolver_for_prefix_free tbl f Hres). }
  split; [exact Hi |].
  intros Hlt. rewrite Hi. unfold unknown_index. lia.
Qed.

Lemma resolver_accepts_suffix_witness :
  (parseType "adamant" TOKEN_OPT = 1 /\ parseType "adamant" TOKEN_OPT <> 2) /\
  (parseLayerProperty "input_shape_anything" = 0 /\
   parseLayerProperty "input_shape_anything" <> 7).
Proof.
  split.
  - destruct (resolver_accepts_suffix optimizer_string
                (fun ll => parseType ll TOKEN_OPT) 1 "adam" "ant"
                rf_opt eq_refl) as [H1 H2].
    split; [exact H1 | apply H2; cbn; lia].
  - destruct (resolver_accepts_suffix property_string parseLayerProperty
                0 "input_shape" "_anything" rf_property eq_refl) as [H1 H2].
    split; [exact H1 | apply H2; cbn; lia].
Defined.

End ResolverClaims.

(* ===================================================================== *)
(** ** Part IV.  Properties of the optimizer interface                    *)
(* ===================================================================== *)

Import OptimizerDevel.

Section InterfaceFacts.

Context {Fields RunOptimizerContext TensorDim Exporter ExportMethods : Type}.

Local Abbreviation Class := (Optimizer Fields RunOptimizerContext TensorDim Exporter ExportMethods).
Local Abbreviation Object := (object Fields RunOptimizerContext TensorDim Exporter ExportMethods).
Local Abbreviation Concrete := (concrete Fields RunOptimizerContext TensorDim Exporter ExportMethods).

Lemma fresh_address_unused (h : gmap positive Object) : h !! fresh (dom h) = None.
Proof. apply not_elem_of_dom. apply is_fresh. Qed.

(** [createOptimizer], by the outcome of [setProperty] on the new object. *)
Lemma createOptimizer_cases (T : Concrete) (props : list string)
    (h : gmap positive Object) :
  let p := fresh (dom h) in
  createOptimizer T props h =
    match setProperty (class_of T) props (construct T) with
    | (Returns _, this') =>
        (Returns p, <[p := {| vptr := class_of T; fields := this' |}]> h)
    | (Throws e, _) => (Throws e, h)
    | (Undefined, this') =>
        (Undefined, <[p := {| vptr := class_of T; fields := this' |}]> h)
    end.
Proof.
  intros p. unfold createOptimizer, bind, make_unique, owning, call_setProperty, invoke, ret.
  fold p. rewrite lookup_insert_eq. cbn [vptr fields].
  destruct (setProperty (class_of T) props (construct T)) as [[u | e |] this'];
    rewrite insert_insert_eq; try reflexivity.
  rewrite delete_insert_eq, delete_id by apply fresh_address_unused.
  reflexivity.
Qed.

(** An object is what its class and data members are. *)
Lemma object_eta (o : Object) : {| vptr := vptr o; fields := fields o |} = o.
Proof. destruct o. reflexivity. Qed.

End InterfaceFacts.

Section InterfaceClaims.

Context {Fields RunOptimizerContext TensorDim Exporter ExportMethods : Type}.

Local Abbreviation Object := (object Fields RunOptimizerContext TensorDim Exporter ExportMethods).
Local Abbreviation Concrete := (concrete Fields RunOptimizerContext TensorDim Exporter ExportMethods).

(** C5, amended.  Every call of [createOptimizer] makes exactly one new
    object, at an address not in use, and calls [setProperty] with the given
    tokens on it before anything else.  When [setProperty] returns, the
    configured object is handed to the caller and nothing else in the store
    has changed; when it throws, the exception reaches the caller and the
    new object is gone again. *)
Theorem createOptimizer_configures_new_instance (T : Concrete)
    (props : list string) (h : gmap positive Object) :
  let p := fresh (dom h) in
  h !! p = None /\
  match setProperty (class_of T) props (construct T) with
  | (Returns _, this') =>
      createOptimizer T props h =
        (Returns p, <[p := {| vptr := class_of T; fields := this' |}]> h) /\
      hands_back_instance T props h
  | (Throws e, _) => createOptimizer T props h = (Throws e, h)
  | (Undefined, _) => fst (createOptimizer T props h) = Undefined
  end.
Proof.
  intros p. split; [apply fresh_address_unused |].
  pose proof (createOptimizer_cases T props h) as Hc. cbv zeta in Hc. fold p in Hc.
  destruct (setProperty (class_of T) props (construct T)) as [[u | e |] this'].
  - split; [exact Hc |]. exists p, this'. split; [apply fresh_address_unused | exact Hc].
  - exact Hc.
  - rewrite Hc. reflexivity.
Qed.

(** C7.  An instance whose class does not override [exportTo] (resp.
    [finalize]) is left as it is by a call of it, as is every other object,
    and [exportTo] leaves the exporter as it is. *)
Theorem default_hooks_change_nothing (h : gmap positive Object) (p : positive)
    (o : Object) (exporter : Exporter) (m : ExportMethods) :
  h !! p = Some o ->
  (exportTo_override (vptr o) = None ->
     call_exportTo p exporter m h = ((Returns tt, exporter), h)) /\
  (finalize_override (vptr o) = None ->
     call_finalize p h = (Returns tt, h)).
Proof.
  intros Hp. split; intros Hnone.
  - unfold call_exportTo. rewrite Hp, Hnone. reflexivity.
  - unfold call_finalize, invoke. rewrite Hp, Hnone.
    unfold Optimizer_finalize. rewrite object_eta, insert_id by exact Hp.
    reflexivity.
Qed.

End InterfaceClaims.

(** C5, as stated, fails: the class [Plain] refuses the token, so the call
    throws and hands no instance to the caller. *)
Lemma createOptimizer_may_throw :
  createOptimizer Plain ["not_a_real_key=1"%string] ∅ = (Throws ConfigurationError, ∅) /\
  ~ hands_back_instance Plain ["not_a_real_key=1"%string] ∅.
Proof.
  assert (createOptimizer Plain ["not_a_real_key=1"%string] ∅
          = (Throws ConfigurationError, ∅)) as Hc.
  { apply (createOptimizer_cases Plain ["not_a_real_key=1"%string] ∅). }
  split; [exact Hc |].
  intros [p [this' [_ Heq]]]. rewrite Hc in Heq. discriminate Heq.
Qed.

Lemma default_hooks_change_nothing_witness :
  let h : gmap positive (object unit unit unit unit unit) :=
    {[ 1%positive := {| vptr := plain; fields := tt |} ]} in
  call_exportTo 1%positive tt tt h = ((Returns tt, tt), h) /\
  call_finalize 1%positive h = (Returns tt, h).
Proof.
  intros h.
  destruct (default_hooks_change_nothing h 1%positive
              {| vptr := plain; fields := tt |} tt tt eq_refl) as [He Hf].
  split; [apply He; reflexivity | apply Hf; reflexivity].
Defined.

(* ===================================================================== *)
(** ** Part V.  The checkpoint round trip                                 *)
(* ===================================================================== *)

Import Checkpoint.

Section CheckpointFacts.

Context {Hyper RunOptimizerContext : Type}.

(** Cutting the concatenation of fields of the right widths gives the
    fields back, and leaves what follows them. *)
Lemma take_fields_concat (ws : list nat) (fs : list (list byte)) (rest : stream) :
  Forall2 (fun w field => List.length field = w) ws fs ->
  take_fields ws (concat fs ++ rest) = Some (fs, rest).
Proof.
  induction 1 as [| w field ws fs Hw _ IH]; [reflexivity |].
  cbn [concat take_fields]. rewrite <- app_assoc.
  assert ((List.length (field ++ concat fs ++ rest) <? w)%nat = false) as ->.
  { apply Nat.ltb_ge. rewrite length_app. lia. }
  subst w.
  rewrite skipn_app, skipn_all, Nat.sub_diag, skipn_O, app_nil_l.
  rewrite IH.
  rewrite firstn_app, firstn_all, Nat.sub_diag, firstn_O, app_nil_r.
  reflexivity.
Qed.

(** C6.  [save] leaves the instance as it is and writes its scalar fields;
    [read] of what was written into a fresh instance with the same
    hyperparameters gives an instance with the very same scalar fields, which
    from then on treats every sequence of contexts as the saved one does. *)
Theorem save_read_round_trip (widths : list nat)
    (update : Hyper -> list (list byte) -> RunOptimizerContext ->
              list (list byte) * RunOptimizerContext)
    (a fresh : @instance Hyper) (later : stream) :
  fixed_width widths a ->
  hyper fresh = hyper a ->
  exists buffer b,
    save [] a = (Returns buffer, a) /\
    read widths (buffer ++ later) fresh = (Returns later, b) /\
    scalars b = scalars a /\
    forall contexts, train update b contexts = train update a contexts.
Proof.
  intros Hw Hh. exists (concat (scalars a)), a.
  split; [reflexivity |]. split.
  - unfold read. rewrite (take_fields_concat widths (scalars a) later Hw).
    rewrite Hh. destruct a. reflexivity.
  - split; reflexivity.
Qed.

End CheckpointFacts.

Lemma save_read_round_trip_witness :
  let a : @instance unit :=
    {| hyper := tt; scalars := [[x01; x00; x00; x00]; [x9a; x99; x99; x3f]] |} in
  let fresh : @instance unit := {| hyper := tt; scalars := [[x00; x00; x00; x00]; [x00; x00; x00; x00]] |} in
  exists buffer b,
    save [] a = (Returns buffer, a) /\
    read [4; 4]%nat (buffer ++ [xff]) fresh = (Returns [xff], b) /\
    scalars b = scalars a /\
    forall contexts : list unit,
      train (fun _ s c => (s, c)) b contexts = train (fun _ s c => (s, c)) a contexts.
Proof.
  intros a fresh.
  apply (save_read_round_trip [4; 4]%nat (fun _ s c => (s, c)) a fresh [xff]).
  - repeat constructor.
  - reflexivity.
Defined.

(* ===================================================================== *)
(** ** Part VI.  Further properties of the resolver                       *)
(* ===================================================================== *)

Section TokenFacts.

Local Open Scope Z_scope.

Lemma ci_eq_sym (a b : ascii) : ci_eq a b = ci_eq b a.
Proof. unfold ci_eq. apply Ascii.eqb_sym. Qed.

Lemma ci_eq_right (a b c : ascii) : ci_eq b c = true -> ci_eq a b = ci_eq a c.
Proof.
  unfold ci_eq. intros H. apply Ascii.eqb_eq in H. rewrite H. reflexivity.
Qed.

Lemma ci_equal_refl (s : string) : ci_equal s s = true.
Proof.
  induction s as [| a s IH]; [reflexivity |].
  cbn [ci_equal]. rewrite ci_eq_refl. exact IH.
Qed.

(** Whether an entry matches depends on the token only up to case. *)
Lemma ci_prefix_ci_equal (e t1 t2 : string) :
  ci_equal t1 t2 = true -> ci_prefix e t1 = ci_prefix e t2.
Proof.
  revert t1 t2. induction e as [| a e IH]; intros [| b1 t1] [| b2 t2] H;
    cbn [ci_equal ci_prefix] in *; try reflexivity; try discriminate.
  apply andb_true_iff in H as [Hb H].
  rewrite (ci_eq_right a b1 b2 Hb), (IH t1 t2 H). reflexivity.
Qed.

(** A token that an entry matches is that entry, up to case, and a rest. *)
Lemma ci_prefix_split (e tok : string) :
  ci_prefix e tok = true ->
  exists suffix, ci_equal (e ++ suffix) tok = true.
Proof.
  revert tok. induction e as [| a e IH]; intros tok H.
  - exists tok. apply ci_equal_refl.
  - destruct tok as [| b tok]; cbn [ci_prefix] in H; [discriminate |].
    apply andb_true_iff in H as [Hab H].
    destruct (IH tok H) as [suffix Hs]. exists suffix.
    simpl. rewrite Hab, Hs. reflexivity.
Qed.

(** A NUL in the token ends what an entry can match. *)
Lemma ci_prefix_until_NUL (e : string) :
  nul_free e = true ->
  forall t1 t2, ci_prefix e (t1 ++ String NUL t2) = ci_prefix e t1.
Proof.
  induction e as [| a e IH]; intros Hnul t1 t2; [reflexivity |].
  cbn [nul_free] in Hnul. apply andb_true_iff in Hnul as [Ha He].
  destruct t1 as [| b t1]; simpl.
  - assert (ci_eq a NUL = false) as ->; [| reflexivity].
    unfold ci_eq. apply Ascii.eqb_neq. intros Heq.
    change (tolower NUL) with NUL in Heq. apply tolower_NUL in Heq.
    subst a. discriminate Ha.
  - rewrite (IH He t1 t2). reflexivity.
Qed.

Lemma ci_clash_sym (e1 e2 : string) : ci_clash e1 e2 = ci_clash e2 e1.
Proof.
  revert e2. induction e1 as [| a e1 IH]; intros [| b e2]; try reflexivity.
  cbn [ci_clash]. rewrite (ci_eq_sym a b), (IH e2). reflexivity.
Qed.

Lemma ci_clash_no_prefix (e1 e2 : string) :
  ci_clash e1 e2 = true -> ci_prefix e1 e2 = false.
Proof.
  revert e2. induction e1 as [| a e1 IH]; intros [| b e2] H;
    cbn [ci_clash ci_prefix] in *; try discriminate; try reflexivity.
  destruct (ci_eq a b); cbn [negb orb andb] in *; [apply IH; exact H | reflexivity].
Qed.

(** In a prefix-free table no entry is a prefix of another one. *)
Lemma prefix_free_no_prefix (tbl : list string) :
  prefix_free tbl = true ->
  forall e1 e2, In e1 tbl -> In e2 tbl -> ci_prefix e1 e2 = true -> e1 = e2.
Proof.
  induction tbl as [| x tbl IH]; intros Hpf e1 e2 H1 H2 Hp; [destruct H1 |].
  cbn [prefix_free] in Hpf. apply andb_true_iff in Hpf as [Hx Hrest].
  rewrite forallb_forall in Hx.
  destruct H1 as [<- | H1], H2 as [<- | H2].
  - reflexivity.
  - rewrite (ci_clash_no_prefix x e2 (Hx e2 H2)) in Hp. discriminate Hp.
  - assert (ci_clash e1 x = true) as Hc by (rewrite ci_clash_sym; apply Hx; exact H1).
    rewrite (ci_clash_no_prefix e1 x Hc) in Hp. discriminate Hp.
  - apply IH; assumption.
Qed.

(** The loop sees a token only through which entries match it. *)
Lemma scan_ext (tbl : list string) (t1 t2 : string) :
  forallb nul_free tbl = true ->
  (forall e, In e tbl -> ci_prefix e t1 = ci_prefix e t2) ->
  forall i, scan tbl t1 i = scan tbl t2 i.
Proof.
  induction tbl as [| e tbl IH]; intros Hnul Hsame i; [reflexivity |].
  cbn [forallb] in Hnul. apply andb_true_iff in Hnul as [He Htbl].
  cbn [scan]. rewrite !(strncasecmp_ci_prefix e He).
  rewrite (Hsame e (or_introl eq_refl)).
  destruct (ci_prefix e t2); [reflexivity |].
  apply IH; [exact Htbl |]. intros e' Hin. apply Hsame. right. exact Hin.
Qed.

Lemma lookup_token_ext (tbl : list string) (t1 t2 : string) :
  forallb nul_free tbl = true ->
  (forall e, In e tbl -> ci_prefix e t1 = ci_prefix e t2) ->
  lookup_token tbl t1 = lookup_token tbl t2.
Proof.
  intros Hnul Hsame. unfold lookup_token.
  rewrite (scan_ext tbl t1 t2 Hnul Hsame 0). reflexivity.
Qed.

End TokenFacts.

Section ResolverExtras.

Local Open Scope Z_scope.
Local Open Scope string_scope.

(** X1.  Whatever the token, the index that a lookup returns is a valid
    subscript of the table it searched: it is at least 0, below the table's
    size, and there is an entry at it. *)
Theorem resolver_index_in_range (tbl : list string) (f : string -> Z) (tok : string) :
  resolver_for tbl f ->
  0 <= f tok < Z.of_nat (List.length tbl) /\
  exists e, nth_error tbl (Z.to_nat (f tok)) = Some e.
Proof.
  intros Hres. destruct (resolver_for_lookup tbl f Hres) as [Hwf Hf]. rewrite Hf.
  assert (0 <= lookup_token tbl tok < Z.of_nat (List.length tbl)) as Hrange.
  { destruct (lookup_token_spec tbl tok Hwf) as [[k [Hk Hfk]] | [Hu _]].
    - destruct Hfk as [[e [Hnth _]] _].
      assert (k < List.length tbl)%nat by (apply nth_error_Some; congruence).
      lia.
    - rewrite Hu. unfold unknown_index. destruct Hwf. lia. }
  split; [exact Hrange |].
  destruct (nth_error tbl (Z.to_nat (lookup_token tbl tok))) as [e |] eqn:Hn.
  - exists e. reflexivity.
  - apply nth_error_None in Hn. lia.
Qed.

Lemma resolver_index_in_range_witness :
  0 <= parseLayerProperty "epsilon=0.001" < 8 /\
  exists e, nth_error property_string (Z.to_nat (parseLayerProperty "epsilon=0.001")) = Some e.
Proof.
  exact (resolver_index_in_range property_string parseLayerProperty
           "epsilon=0.001" rf_property).
Defined.

(** X2.  The lookups ignore the case of the token: two tokens that are equal
    up to the case of their letters resolve to the same index. *)
Theorem resolver_ignores_case (tbl : list string) (f : string -> Z) (t1 t2 : string) :
  resolver_for tbl f ->
  ci_equal t1 t2 = true ->
  f t1 = f t2.
Proof.
  intros Hres Heq. destruct (resolver_for_lookup tbl f Hres) as [Hwf Hf].
  rewrite !Hf. apply lookup_token_ext; [apply Hwf |].
  intros e _. apply ci_prefix_ci_equal. exact Heq.
Qed.

Lemma resolver_ignores_case_witness :
  ci_equal "Fully_Connected" "FULLY_connected" = true /\
  parseType "Fully_Connected" TOKEN_LAYER = parseType "FULLY_connected" TOKEN_LAYER.
Proof.
  split; [reflexivity |].
  apply (resolver_ignores_case layer_string (fun ll => parseType ll TOKEN_LAYER)
           "Fully_Connected" "FULLY_connected" rf_layer).
  reflexivity.
Defined.

(** X3.  A token resolves to the index of a real entry exactly when it
    starts with that entry, up to case: no table has two entries that can
    match the same token, so the order of the entries never decides. *)
Theorem resolver_real_entry_iff (tbl : list string) (f : string -> Z)
    (i : nat) (e tok : string) :
  resolver_for tbl f ->
  nth_error (real_entries tbl) i = Some e ->
  (f tok = Z.of_nat i <-> ci_prefix e tok = true).
Proof.
  intros Hres Hreal. destruct (resolver_for_lookup tbl f Hres) as [Hwf Hf].
  apply real_entries_nth in Hreal as [Hi Hnth]. rewrite Hf. split.
  - intros Hidx.
    destruct (lookup_token_spec tbl tok Hwf) as [[k [Hk Hfk]] | [Hu _]].
    + assert (k = i) by lia. subst k.
      destruct Hfk as [[e' [Hnth' Hp]] _]. congruence.
    + rewrite Hu in Hidx. unfold unknown_index in Hidx. lia.
  - intros Hp. destruct (ci_prefix_split e tok Hp) as [suffix Hs].
    rewrite <- (lookup_token_ext tbl (e ++ suffix) tok).
    + apply lookup_token_first; [exact Hwf |].
      apply prefix_free_first_match; [| exact Hnth].
      apply (resolver_for_prefix_free tbl f Hres).
    + apply Hwf.
    + intros e' _. apply ci_prefix_ci_equal. exact Hs.
Qed.

Lemma resolver_real_entry_iff_witness :
  parseType "Xavier_Uniform" TOKEN_WEIGHTINI = 3 <->
  ci_prefix "xavier_uniform" "Xavier_Uniform" = true.
Proof.
  exact (resolver_real_entry_iff weight_ini_string
           (fun ll => parseType ll TOKEN_WEIGHTINI) 3 "xavier_uniform"
           "Xavier_Uniform" rf_weightini eq_refl).
Defined.

(** X4.  The lookups read the token as a C string: the bytes from its first
    NUL on never influence the result. *)
Theorem resolver_stops_at_NUL (tbl : list string) (f : string -> Z) (t1 t2 : string) :
  resolver_for tbl f ->
  f (t1 ++ String NUL t2) = f t1.
Proof.
  intros Hres. destruct (resolver_for_lookup tbl f Hres) as [Hwf Hf].
  rewrite !Hf. apply lookup_token_ext; [apply Hwf |].
  intros e He. apply ci_prefix_until_NUL.
  pose proof (wf_nul_free tbl Hwf) as Hnul.
  rewrite forallb_forall in Hnul. apply Hnul. exact He.
Qed.

Lemma resolver_stops_at_NUL_witness :
  parseType ("ad" ++ String NUL "am") TOKEN_OPT = parseType "ad" TOKEN_OPT.
Proof.
  exact (resolver_stops_at_NUL optimizer_string (fun ll => parseType ll TOKEN_OPT)
           "ad" "am" rf_opt).
Defined.

(** X5.  No lookup accepts an abbreviation: a token that is a proper prefix,
    up to case, of an entry of the table resolves to the unknown index. *)
Theorem abbreviation_resolves_to_unknown (tbl : list string) (f : string -> Z)
    (e tok : string) :
  resolver_for tbl f ->
  In e tbl ->
  ci_prefix tok e = true ->
  (String.length tok < String.length e)%nat ->
  f tok = unknown_index tbl.
Proof.
  intros Hres He Hpre Hlen. destruct (resolver_for_lookup tbl f Hres) as [Hwf Hf].
  rewrite Hf. apply lookup_token_none; [exact Hwf |].
  intros e' He'. destruct (ci_prefix e' tok) eqn:Hp; [exfalso | reflexivity].
  pose proof (ci_prefix_trans e' tok e Hp Hpre) as Hee.
  pose proof (prefix_free_no_prefix tbl (resolver_for_prefix_free tbl f Hres)
                e' e He' He Hee) as Heq.
  subst e'. apply ci_prefix_length in Hp. lia.
Qed.

Lemma abbreviation_resolves_to_unknown_witness :
  parseLayerProperty "Norm" = 7 /\ parseType "batch_norm" TOKEN_LAYER = 3.
Proof.
  split.
  - apply (abbreviation_resolves_to_unknown property_string parseLayerProperty
             "normalization" "Norm" rf_property).
    + cbn. tauto.
    + reflexivity.
    + cbn. lia.
  - apply (abbreviation_resolves_to_unknown layer_string
             (fun ll => parseType ll TOKEN_LAYER)
             "batch_normalization" "batch_norm" rf_layer).
    + cbn. tauto.
    + reflexivity.
    + cbn. lia.
Defined.

End ResolverExtras.
